(** * One-page summary renderer: layout cursor, wrapper and overflow guard

    A shallow embedding of [tmp/pdfs/generate_component_summary_pdf.py].

    Conventions of the embedding:
    - Python [str] is [string]; a character is one [ascii] code point.
    - The canvas [c] is the ordered log of the calls made on it; the cursor
      [y] and the canvas are the two module-level globals every drawing
      primitive mutates, threaded here as a record [globals].
    - The file system and standard output touched by the script are the
      record [world].
    - Numbers. The main embedding takes Python's numbers as exact rationals
      [Q]. Python's floats are binary64 and every [y -= d] rounds, so what
      is stated about the cursor in the main embedding is stated one
      subtraction at a time, or as an order ([<=]), never as a closed form
      that only exact arithmetic has. The module [Binary64] embeds the
      cursor with binary64 arithmetic as the program has it; it is used
      where rounding decides the property. *)

From Stdlib Require Import QArith Lqa List String Ascii Bool Lia.
From Stdlib Require Import Floats.PrimFloat Floats.SpecFloat Floats.FloatOps.
From stdpp Require Import gmap strings.
Import ListNotations.

Open Scope string_scope.
Open Scope list_scope.
Open Scope Q_scope.

(** ** Strings *)

Module Str.

(** [str.isspace] on the code points below 256. *)
Definition isspace (ch : ascii) : bool :=
  let n := nat_of_ascii ch in
  (((9 <=? n) && (n <=? 13)) || ((28 <=? n) && (n <=? 32))
   || (n =? 133) || (n =? 160))%nat.

Definition flush (w : string) : list string :=
  match w with
  | EmptyString => []
  | String _ _ => [w]
  end.

(** One right-to-left pass over the text: the run that is still open at
    the front, and the runs completed behind it. [sep] tells the
    separator characters. *)
Fixpoint runs_go (sep : ascii -> bool) (s : string) : string * list string :=
  match s with
  | EmptyString => (EmptyString, [])
  | String ch s' =>
      let (w, ts) := runs_go sep s' in
      if sep ch then (EmptyString, flush w ++ ts)
      else (String ch w, ts)
  end.

(** The maximal runs of non-separator characters, in order. *)
Definition runs (sep : ascii -> bool) (s : string) : list string :=
  let (w, ts) := runs_go sep s in flush w ++ ts.

(** [text.split()]: the maximal runs of non-whitespace characters. *)
Definition split (s : string) : list string := runs isspace s.

(** [sep.join(parts)] with [sep = " "]. *)
Definition join (parts : list string) : string := String.concat " " parts.

(** A string [split] keeps as one token: non-empty, no whitespace. *)
Fixpoint nospace (s : string) : bool :=
  match s with
  | EmptyString => true
  | String ch s' => negb (isspace ch) && nospace s'
  end.

Definition is_token (s : string) : bool :=
  match s with
  | EmptyString => false
  | String _ _ => nospace s
  end.

(** Empty or whitespace-only. *)
Fixpoint blank (s : string) : bool :=
  match s with
  | EmptyString => true
  | String ch s' => isspace ch && blank s'
  end.

Definition digit_char (d : nat) : ascii := ascii_of_nat (48 + d).

Fixpoint digits_fuel (fuel n : nat) : string :=
  match fuel with
  | O => EmptyString
  | S f =>
      if (n <? 10)%nat then String (digit_char n) EmptyString
      else digits_fuel f (n / 10) +:+ String (digit_char (n mod 10)) EmptyString
  end.

(** [f"{n}"] for a non-negative int: its decimal digits. *)
Definition str (n : nat) : string := digits_fuel (S n) n.

Definition is_digit (ch : ascii) : bool :=
  let n := nat_of_ascii ch in ((48 <=? n) && (n <=? 57))%nat.

End Str.

(** ** Text measurer and wrapper *)

Section Wrapper.

(** Advance width of a glyph of a font, in 1/1000 of the font size (the
    font's metrics table, which the script takes from its PDF library). *)
Variable glyph : string -> ascii -> Z.

Fixpoint glyphs (fontName : string) (text : string) : Z :=
  match text with
  | EmptyString => 0%Z
  | String ch rest => (glyph fontName ch + glyphs fontName rest)%Z
  end.

(** Modelled from the spec: [stringWidth] of the PDF library is not part of
    the repository; the spec calls it "the measured rendered width (a
    function of font, size, and character metrics)". *)
Definition stringWidth (text fontName : string) (fontSize : Q) : Q :=
  inject_Z (glyphs fontName text) * fontSize / 1000.

Definition fits (fontName : string) (fontSize maxWidth : Q)
    (line : list string) : bool :=
  Qle_bool (stringWidth (Str.join line) fontName fontSize) maxWidth.

Definition close (cur : list string) : list (list string) :=
  match cur with
  | [] => []
  | _ :: _ => [cur]
  end.

(** Greedy accumulation: [cur] is the line being filled. A token is added
    while the line with it still measures at most [maxWidth]; otherwise the
    line is closed and the token starts the next one. A token that opens a
    line is placed whatever its width. *)
Fixpoint wrap_tokens (fontName : string) (fontSize maxWidth : Q)
    (cur toks : list string) : list (list string) :=
  match toks with
  | [] => close cur
  | t :: ts =>
      match cur with
      | [] => wrap_tokens fontName fontSize maxWidth [t] ts
      | _ :: _ =>
          if fits fontName fontSize maxWidth (cur ++ [t])
          then wrap_tokens fontName fontSize maxWidth (cur ++ [t]) ts
          else cur :: wrap_tokens fontName fontSize maxWidth [t] ts
      end
  end.

(** Modelled from the spec: [simpleSplit] of the PDF library is not part of
    the repository. Section 4.1: "Splits text on whitespace into tokens,
    greedily accumulates tokens into the current line while the measured
    rendered width stays <= max_width; when adding the next token would
    exceed it, the current line is closed and a new one started with that
    token. A single token wider than max_width on its own is still placed
    alone on its line. Returns an empty sequence only when text is empty or
    whitespace-only." *)
Definition simpleSplit (text fontName : string) (fontSize maxWidth : Q)
    : list string :=
  map Str.join (wrap_tokens fontName fontSize maxWidth [] (Str.split text)).

End Wrapper.

(** ** Page geometry *)

(** Modelled from the spec: the page-size constant [letter] of the PDF
    library is not part of the repository; the spec fixes 'a standard
    "Letter" page size', 8.5 x 11 inches at 72 points per inch. *)
Definition letter : Q * Q := (612, 792).

Definition PAGE_WIDTH : Q := fst letter.
Definition PAGE_HEIGHT : Q := snd letter.
Definition MARGIN : Q := 42.
Definition CONTENT_WIDTH : Q := PAGE_WIDTH - (2 * MARGIN).

Definition OUTPUT_PATH : string :=
  "output/pdf/accessible-spreadsheet-component-summary.pdf".

(** ** Canvas and cursor *)

(** The calls the script makes on the canvas. *)
Inductive op : Type :=
| SetFont (fontName : string) (fontSize : Q)
| DrawString (x y0 : Q) (text : string).

(** The module-level globals [c] (the canvas, as the log of its calls, oldest
    first) and [y] (the cursor). *)
Record globals : Type := { c : list op; y : Q }.

Definition setFont (fontName : string) (fontSize : Q) (g : globals) : globals :=
  {| c := c g ++ [SetFont fontName fontSize]; y := y g |}.

Definition drawString (x y0 : Q) (text : string) (g : globals) : globals :=
  {| c := c g ++ [DrawString x y0 text]; y := y g |}.

(** [y -= d] *)
Definition y_sub (d : Q) (g : globals) : globals :=
  {| c := c g; y := y g - d |}.

(** [enumerate(items, start)] *)
Fixpoint enumerate {A : Type} (start : nat) (items : list A) : list (nat * A) :=
  match items with
  | [] => []
  | item :: rest => (start, item) :: enumerate (S start) rest
  end.

Section Layout.

Variable glyph : string -> ascii -> Z.

Definition draw_title (text : string) (g : globals) : globals :=
  let g := setFont "Helvetica-Bold" 18 g in
  let g := drawString MARGIN (y g) text g in
  y_sub 22 g.

Definition draw_heading (text : string) (g : globals) : globals :=
  let g := setFont "Helvetica-Bold" 11.5 g in
  let g := drawString MARGIN (y g) text g in
  y_sub 14 g.

(** The loop [for line in lines: c.drawString(x, y, line); y -= line_height]. *)
Definition draw_lines (x line_height : Q) (lines : list string) (g : globals)
    : globals :=
  fold_left (fun g line => y_sub line_height (drawString x (y g) line g))
            lines g.

Definition draw_paragraph (text : string) (font_size line_height : Q)
    (g : globals) : globals :=
  let g := setFont "Helvetica" font_size g in
  let lines := simpleSplit glyph text "Helvetica" font_size CONTENT_WIDTH in
  draw_lines MARGIN line_height lines g.

Definition bullet_indent : Q := 12.

(** Body of the loop of [draw_bullets]. *)
Definition draw_bullet (font_size line_height text_width : Q)
    (g : globals) (item : string) : globals :=
  match simpleSplit glyph item "Helvetica" font_size text_width with
  | [] => g
  | first :: rest =>
      let g := drawString MARGIN (y g) ("- " +:+ first) g in
      let g := y_sub line_height g in
      draw_lines (MARGIN + bullet_indent) line_height rest g
  end.

Definition draw_bullets (items : list string) (font_size line_height : Q)
    (g : globals) : globals :=
  let g := setFont "Helvetica" font_size g in
  let text_width := CONTENT_WIDTH - bullet_indent in
  fold_left (draw_bullet font_size line_height text_width) items g.

(** [f"{idx}. "] *)
Definition prefix_of (idx : nat) : string := Str.str idx +:+ ". ".

(** Body of the loop of [draw_numbered]. *)
Definition draw_number (font_size line_height : Q)
    (g : globals) (entry : nat * string) : globals :=
  let (idx, item) := entry in
  let prefix := prefix_of idx in
  let prefix_width := stringWidth glyph prefix "Helvetica" font_size in
  let text_width := CONTENT_WIDTH - prefix_width in
  match simpleSplit glyph item "Helvetica" font_size text_width with
  | [] => g
  | first :: rest =>
      let g := drawString MARGIN (y g) (prefix +:+ first) g in
      let g := y_sub line_height g in
      draw_lines (MARGIN + prefix_width) line_height rest g
  end.

Definition draw_numbered (items : list string) (font_size line_height : Q)
    (g : globals) : globals :=
  let g := setFont "Helvetica" font_size g in
  fold_left (draw_number font_size line_height) (enumerate 1 items) g.

Definition section_gap (g : globals) : globals := y_sub 6 g.

(** A call of one of the six primitives, with its arguments. *)
Inductive call : Type :=
| Title (text : string)
| Heading (text : string)
| Paragraph (text : string) (font_size line_height : Q)
| Bullets (items : list string) (font_size line_height : Q)
| Numbered (items : list string) (font_size line_height : Q)
| Gap.

Definition run_call (g : globals) (k : call) : globals :=
  match k with
  | Title text => draw_title text g
  | Heading text => draw_heading text g
  | Paragraph text fs lh => draw_paragraph text fs lh g
  | Bullets items fs lh => draw_bullets items fs lh g
  | Numbered items fs lh => draw_numbered items fs lh g
  | Gap => section_gap g
  end.

Definition run_calls (ks : list call) (g : globals) : globals :=
  fold_left run_call ks g.

End Layout.

(** ** File system, standard output and the script *)

Module Path.

Definition is_slash (ch : ascii) : bool := Ascii.eqb ch "/".

Definition parts (p : string) : list string := Str.runs is_slash p.

Definition of_parts (ps : list string) : string := String.concat "/" ps.

(** [Path(p).parent] *)
Definition parent (p : string) : string := of_parts (removelast (parts p)).

Fixpoint prefixes {A : Type} (l : list A) : list (list A) :=
  match l with
  | [] => []
  | x :: rest => [x] :: map (cons x) (prefixes rest)
  end.

(** The directory [p] with all its ancestors, outermost first. *)
Definition chain (p : string) : list string :=
  map of_parts (prefixes (parts p)).

End Path.

(** What the script can observe and change outside its own memory: the
    directories and files that exist (a file holds the canvas that was
    saved to it) and the lines printed. *)
Record world : Type := {
  dirs : gset string;
  files : gmap string (list op);
  stdout : list string
}.

(** [p.mkdir(parents=True, exist_ok=True)] *)
Definition mkdir_parents (p : string) (w : world) : world :=
  {| dirs := dirs w ∪ list_to_set (Path.chain p);
     files := files w;
     stdout := stdout w |}.

(** [c.save()] for a canvas opened on [path]: the file is written here, not
    when the canvas is created. *)
Definition save (path : string) (content : list op) (w : world) : world :=
  {| dirs := dirs w;
     files := <[path := content]> (files w);
     stdout := stdout w |}.

Definition print (line : string) (w : world) : world :=
  {| dirs := dirs w;
     files := files w;
     stdout := stdout w ++ [line] |}.

(** How a run ends: normally, or with the uncaught
    [RuntimeError(f"Content overflowed one page (y={y}).")]. *)
Inductive outcome : Type :=
| Finished
| RuntimeError (y_final : Q).

Definition Qlt_bool (a b : Q) : bool := negb (Qle_bool b a).

(** The double-quote character inside the texts of the document. *)
Definition dq : string := String (ascii_of_nat 34) EmptyString.

(** The drawing calls of the script, lines 82 to 136, in order. The
    paragraph calls use the defaults [9.8] and [12], the list calls the
    defaults [9.6] and [11.5]. *)
Definition document : list call := [
  Title "Accessible Spreadsheet Component - One Page Summary";
  Heading "What it is";
  Paragraph
    ("<y11n-spreadsheet> is a Lit 3.0 + TypeScript web component that provides an accessible "
     +:+ "spreadsheet-style grid in the browser. It implements WAI-ARIA grid semantics with keyboard-first "
     +:+ "interaction for data entry and calculation workflows.")
    9.8 12;
  Gap;
  Heading "What use cases it covers";
  Paragraph
    ("Primary use case: embedding a spreadsheet-like UI in web apps where users need to navigate, edit, "
     +:+ "select ranges, and run formulas while preserving keyboard and screen-reader accessibility.")
    9.8 12;
  Gap;
  Heading "What it does";
  Bullets [
    "Implements WAI-ARIA grid roles, roving tabindex, and aria-live announcements for active cell feedback.";
    "Supports Excel-like keyboard controls: arrows, Tab/Shift+Tab, Enter, Escape, Delete/Backspace, and Ctrl/Cmd shortcuts.";
    "Provides in-cell editing via Enter, double-click, or type-to-edit, with optional read-only mode.";
    "Evaluates formulas with cell refs, ranges, arithmetic, comparisons, string concatenation, and built-in functions.";
    "Allows custom formula extension through registerFunction(name, fn).";
    "Handles copy/cut/paste via TSV clipboard serialization with bounds-aware paste behavior.";
    "Uses virtual row rendering plus scroll spacers to keep large datasets responsive."
  ] 9.6 11.5;
  Gap;
  Heading "How it works";
  Bullets [
    "Grid data is a sparse Map keyed by " +:+ dq +:+ "row:col" +:+ dq
      +:+ " (CellData stores rawValue, displayValue, and type).";
    "SelectionManager tracks anchor/head cells and normalized ranges for keyboard and pointer selection.";
    "FormulaEngine parses and evaluates formulas, then recalculates formula cells after edits or data changes.";
    "ClipboardManager converts selected ranges to TSV and parses pasted TSV into bounded cell updates.";
    "The component dispatches cell-change, selection-change, and data-change events for integration hooks."
  ] 9.6 11.5;
  Gap;
  Heading "How to run/use (minimal)";
  Numbered [
    "Install dependencies: npm install";
    "Run the local demo/dev app: npm run dev";
    "Register the component in your app (repo pattern): import './src/index.ts'";
    "Place the element in markup: <y11n-spreadsheet rows=" +:+ dq +:+ "50" +:+ dq
      +:+ " cols=" +:+ dq +:+ "26" +:+ dq +:+ "></y11n-spreadsheet>";
    "Provide data through setData(...) or the data property; listen for cell-change/selection-change/data-change events.";
    "Required Node.js version: Not found in repo.";
    "Published package install and production import instructions: Not found in repo."
  ] 9.6 11.5
].

Section Script.

Variable glyph : string -> ascii -> Z.

(** The globals when the first drawing call runs: an empty canvas and the
    cursor at the top margin. *)
Definition start : globals := {| c := []; y := PAGE_HEIGHT - MARGIN |}.

(** The whole module, top to bottom, for the drawing calls [doc]: create
    the parent directories, open the canvas, draw, check the cursor once,
    then save and print the path. *)
Definition script_with (doc : list call) (w : world) : outcome * world :=
  let w := mkdir_parents (Path.parent OUTPUT_PATH) w in
  let g := run_calls glyph doc start in
  if Qlt_bool (y g) MARGIN then (RuntimeError (y g), w)
  else
    let w := save OUTPUT_PATH (c g) w in
    let w := print OUTPUT_PATH w in
    (Finished, w).

Definition script (w : world) : outcome * world := script_with document w.

End Script.

(** ** Vocabulary of the statements *)

(** A count as a rational. *)
Definition Qnat (n : nat) : Q := inject_Z (Z.of_nat n).

(** The canvas calls of [draw_lines] started with the cursor at [y0]: one
    [DrawString] per line, each [line_height] below the one before. *)
Fixpoint line_ops (x y0 line_height : Q) (lines : list string) : list op :=
  match lines with
  | [] => []
  | line :: rest =>
      DrawString x y0 line :: line_ops x (y0 - line_height) line_height rest
  end.

(** The text of a [DrawString]; [SetFont] draws nothing. *)
Definition drawn_text (o : op) : list string :=
  match o with
  | SetFont _ _ => []
  | DrawString _ _ text => [text]
  end.

(** The texts drawn on a canvas, in drawing order. *)
Definition drawn (ops : list op) : list string := flat_map drawn_text ops.

(** The line heights a call is given are not negative. *)
Definition heights_nonneg (k : call) : Prop :=
  match k with
  | Paragraph _ _ lh | Bullets _ _ lh | Numbered _ _ lh => 0 <= lh
  | Title _ | Heading _ | Gap => True
  end.


(** The canvas calls for one list item whose wrapped lines are [wrapped]:
    the first line with its marker at the left margin, the others at
    [x_rest]. Nothing for an item that wraps to no line. *)
Definition item_ops (x_rest y0 line_height : Q) (marker : string)
    (wrapped : list string) : list op :=
  match wrapped with
  | [] => []
  | first :: rest =>
      DrawString MARGIN y0 (marker +:+ first)
      :: line_ops x_rest (y0 - line_height) line_height rest
  end.

(** The texts drawn for one list item. *)
Definition marked (marker : string) (wrapped : list string) : list string :=
  match wrapped with
  | [] => []
  | first :: rest => (marker +:+ first) :: rest
  end.


(** The text width left for the item with ordinal [idx] of a numbered
    list: the content width less the measured width of its prefix. *)
Definition number_budget (glyph : string -> ascii -> Z) (font_size : Q)
    (idx : nat) : Q :=
  CONTENT_WIDTH - stringWidth glyph (prefix_of idx) "Helvetica" font_size.

(** ** Metrics and worlds used in the examples *)

(** Every glyph of every font [w] units wide. *)
Definition mono (w : Z) : string -> ascii -> Z := fun _ _ => w.

Definition empty_world : world := {| dirs := ∅; files := ∅; stdout := [] |}.

(** A metrics table with tabular digits: 556 for each digit, 278 for the
    period and the space, 500 for every other glyph, in every font. *)
Definition sample_metric : string -> ascii -> Z :=
  fun _ ch =>
    if Str.is_digit ch then 556%Z
    else if (Ascii.eqb ch "." || Ascii.eqb ch " ")%bool then 278%Z
    else 500%Z.

(** Eleven short items and a twelfth that wraps. *)
Definition twelve_items : list string :=
  ["one"; "two"; "three"; "four"; "five"; "six"; "seven"; "eight"; "nine";
   "ten"; "eleven";
   "Provide data through setData(...) or the data property; listen for cell-change/selection-change/data-change events."].

(** A world in which an earlier run left a file at the output path. *)
Definition old_file : list op := [DrawString 42 750 "old"].

Definition world_with_old_file : world :=
  {| dirs := {[ "output"; "output/pdf" ]};
     files := {[ OUTPUT_PATH := old_file ]};
     stdout := [] |}.

(** ** Vocabulary of the further properties *)

(** What a [SetFont] selects: a font name and a size. *)
Definition font : Type := (string * Q)%type.

(** The font in effect after the canvas calls [ops], when [cur] was in
    effect before them. *)
Fixpoint font_after (cur : option font) (ops : list op) : option font :=
  match ops with
  | [] => cur
  | SetFont name size :: rest => font_after (Some (name, size)) rest
  | DrawString _ _ _ :: rest => font_after cur rest
  end.

(** The texts drawn by [ops], each with the font in effect when it is
    drawn. *)
Fixpoint drawn_in (cur : option font) (ops : list op)
    : list (option font * string) :=
  match ops with
  | [] => []
  | SetFont name size :: rest => drawn_in (Some (name, size)) rest
  | DrawString _ _ text :: rest => (cur, text) :: drawn_in cur rest
  end.

Definition is_draw (o : op) : Prop :=
  match o with
  | SetFont _ _ => False
  | DrawString _ _ _ => True
  end.

(** [f] only adds [DrawString] calls to the canvas, and their texts are
    [texts] wherever it starts. *)
Definition draws (f : globals -> globals) (texts : list string) : Prop :=
  forall g, exists ext,
    c (f g) = c g ++ ext /\ Forall is_draw ext /\ drawn ext = texts.

(** A [DrawString] whose baseline lies between [lo] and [hi]. *)
Definition baseline_within (lo hi : Q) (o : op) : Prop :=
  match o with
  | SetFont _ _ => True
  | DrawString _ y0 _ => lo <= y0 /\ y0 <= hi
  end.

(** The cursor is at most [top], and everything drawn so far lies between
    the cursor and [top]. *)
Definition tidy (top : Q) (g : globals) : Prop :=
  y g <= top /\ Forall (baseline_within (y g) top) (c g).

(** A [DrawString] whose text, measured in Helvetica at [size], ends at or
    before [edge]. *)
Definition ends_by (glyph : string -> ascii -> Z) (size edge : Q) (o : op)
    : Prop :=
  match o with
  | SetFont _ _ => True
  | DrawString x _ text => x + stringWidth glyph text "Helvetica" size <= edge
  end.

(** The cursor after [n] statements [y -= line_height], started at [y0]. *)
Fixpoint lowered (n : nat) (line_height y0 : Q) : Q :=
  match n with
  | O => y0
  | S n' => lowered n' line_height (y0 - line_height)
  end.

(** ** The cursor in binary64 *)

(** The title, paragraph and cursor code again, with the numbers Python
    has: binary64 floats, every operation rounded to nearest. The ints of
    the script ([42], [2]) meet floats in every operation they enter and
    are the floats of the same value. *)
Module Binary64.

(** The exact value of a finite binary64 number: its mantissa times a
    power of two. *)
Definition exact (f : float) : Q :=
  match Prim2SF f with
  | S754_finite sign m e =>
      let v := match e with
               | Z0 => inject_Z (Zpos m)
               | Zpos p => inject_Z (Zpos m * Z.pow_pos 2 p)
               | Zneg p => Zpos m # Pos.pow 2 p
               end in
      if sign then - v else v
  | S754_zero _ | S754_infinity _ | S754_nan => 0
  end.

(** Modelled from the spec: the page-size constant [letter] of the PDF
    library, as in the main embedding. *)
Definition letter : float * float := (612%float, 792%float).

Definition PAGE_WIDTH : float := fst letter.
Definition PAGE_HEIGHT : float := snd letter.
Definition MARGIN : float := 42%float.
Definition CONTENT_WIDTH : float := (PAGE_WIDTH - (2 * MARGIN))%float.

Inductive op : Type :=
| SetFont (fontName : string) (fontSize : float)
| DrawString (x y0 : float) (text : string).

Record globals : Type := { c : list op; y : float }.

Definition setFont (fontName : string) (fontSize : float) (g : globals)
    : globals :=
  {| c := c g ++ [SetFont fontName fontSize]; y := y g |}.

Definition drawString (x y0 : float) (text : string) (g : globals) : globals :=
  {| c := c g ++ [DrawString x y0 text]; y := y g |}.

(** [y -= d], rounded *)
Definition y_sub (d : float) (g : globals) : globals :=
  {| c := c g; y := (y g - d)%float |}.

Definition draw_lines (x line_height : float) (lines : list string)
    (g : globals) : globals :=
  fold_left (fun g line => y_sub line_height (drawString x (y g) line g))
            lines g.

(** The wrapper stays the one modelled from the spec; it is given the exact
    values of the font size and of the width. *)
Definition draw_paragraph (glyph : string -> ascii -> Z) (text : string)
    (font_size line_height : float) (g : globals) : globals :=
  let g := setFont "Helvetica" font_size g in
  let lines := simpleSplit glyph text "Helvetica"
                 (exact font_size) (exact CONTENT_WIDTH) in
  draw_lines MARGIN line_height lines g.

Definition start : globals :=
  {| c := []; y := (PAGE_HEIGHT - MARGIN)%float |}.

(** The cursor after [n] statements [y -= line_height], started at [y0]. *)
Fixpoint lowered (n : nat) (line_height y0 : float) : float :=
  match n with
  | O => y0
  | S n' => lowered n' line_height (y0 - line_height)%float
  end.

(** The canvas calls of [draw_lines] started with the cursor at [y0]. *)
Fixpoint line_ops (x y0 line_height : float) (lines : list string) : list op :=
  match lines with
  | [] => []
  | line :: rest =>
      DrawString x y0 line
      :: line_ops x (y0 - line_height)%float line_height rest
  end.

End Binary64.

(** * Properties *)

(** ** Splitting and joining *)

Lemma append_cons (ch : ascii) (s t : string) :
  String ch s +:+ t = String ch (s +:+ t).
Proof. reflexivity. Qed.

Lemma append_empty_r (s : string) : s +:+ EmptyString = s.
Proof.
  induction s as [|ch s IH]; [reflexivity |].
  now rewrite append_cons, IH.
Qed.

Lemma append_assoc (s t u : string) : (s +:+ t) +:+ u = s +:+ (t +:+ u).
Proof.
  induction s as [|ch s IH]; [reflexivity |].
  now rewrite !append_cons, IH.
Qed.

Lemma runs_go_tokens (s : string) :
  Str.nospace (fst (Str.runs_go Str.isspace s)) = true /\
  Forall (fun t => Str.is_token t = true) (snd (Str.runs_go Str.isspace s)).
Proof.
  induction s as [|ch s [IHw IHts]]; simpl.
  - split; [reflexivity | constructor].
  - destruct (Str.runs_go Str.isspace s) as [w ts]; simpl in *.
    destruct (Str.isspace ch) eqn:E; simpl.
    + split; [reflexivity |].
      destruct w as [|a w]; simpl; [exact IHts |].
      constructor; [exact IHw | exact IHts].
    + rewrite E. simpl. split; [exact IHw | exact IHts].
Qed.

Lemma split_tokens (s : string) :
  Forall (fun t => Str.is_token t = true) (Str.split s).
Proof.
  unfold Str.split, Str.runs.
  destruct (runs_go_tokens s) as [Hw Hts].
  destruct (Str.runs_go Str.isspace s) as [w ts]; simpl in *.
  destruct w as [|a w]; simpl; [exact Hts |].
  constructor; [exact Hw | exact Hts].
Qed.

Lemma runs_go_nospace (t s : string) :
  Str.nospace t = true ->
  Str.runs_go Str.isspace (t +:+ s) =
  (t +:+ fst (Str.runs_go Str.isspace s), snd (Str.runs_go Str.isspace s)).
Proof.
  induction t as [|ch t IH]; intros H.
  - change (EmptyString +:+ s) with s.
    now destruct (Str.runs_go Str.isspace s).
  - simpl in H. apply andb_true_iff in H as [Hch Ht].
    rewrite !append_cons. simpl. rewrite (IH Ht).
    apply negb_true_iff in Hch. now rewrite Hch.
Qed.

Lemma split_token (t : string) :
  Str.is_token t = true -> Str.split t = [t].
Proof.
  intros H. unfold Str.split, Str.runs.
  destruct t as [|ch t]; [discriminate |].
  simpl in H.
  rewrite <- (append_empty_r (String ch t)) at 1.
  rewrite runs_go_nospace by exact H.
  simpl. now rewrite append_empty_r.
Qed.

Lemma split_token_space (t rest : string) :
  Str.is_token t = true ->
  Str.split (t +:+ " " +:+ rest) = t :: Str.split rest.
Proof.
  intros H. unfold Str.split, Str.runs.
  destruct t as [|ch t]; [discriminate |].
  simpl in H.
  rewrite runs_go_nospace by exact H.
  change (" " +:+ rest) with (String " " rest).
  simpl. destruct (Str.runs_go Str.isspace rest) as [w ts]; simpl.
  now rewrite append_empty_r.
Qed.

(** Joining tokens with single spaces and splitting again gives the tokens
    back. *)
Lemma split_join (toks : list string) :
  Forall (fun t => Str.is_token t = true) toks ->
  Str.split (Str.join toks) = toks.
Proof.
  induction 1 as [|t rest Ht Hrest IH]; [reflexivity |].
  destruct rest as [|t' rest'].
  - now apply split_token.
  - change (Str.join (t :: t' :: rest'))
      with (t +:+ " " +:+ Str.join (t' :: rest')).
    rewrite split_token_space by exact Ht.
    now rewrite IH.
Qed.

Lemma join_app (a b : list string) :
  a <> [] -> b <> [] ->
  Str.join (a ++ b) = Str.join a +:+ " " +:+ Str.join b.
Proof.
  induction a as [|x a IH]; intros Ha Hb; [congruence |].
  destruct a as [|x' a'].
  - destruct b as [|y0 b]; [congruence | reflexivity].
  - change (Str.join ((x :: x' :: a') ++ b))
      with (x +:+ " " +:+ Str.join ((x' :: a') ++ b)).
    rewrite IH by (congruence || assumption).
    change (Str.join (x :: x' :: a')) with (x +:+ " " +:+ Str.join (x' :: a')).
    now rewrite !append_assoc.
Qed.

Lemma join_groups (gs : list (list string)) :
  Forall (fun g => g <> []) gs ->
  Str.join (map Str.join gs) = Str.join (concat gs).
Proof.
  induction 1 as [|g gs Hg Hgs IH]; [reflexivity |].
  destruct gs as [|g' gs'].
  - simpl. now rewrite app_nil_r.
  - change (Str.join (map Str.join (g :: g' :: gs')))
      with (Str.join g +:+ " " +:+ Str.join (map Str.join (g' :: gs'))).
    rewrite IH.
    change (concat (g :: g' :: gs')) with (g ++ concat (g' :: gs')).
    rewrite join_app; [reflexivity | exact Hg |].
    inversion Hgs as [|? ? Hg' _]; subst.
    destruct g'; [congruence | discriminate].
Qed.

Lemma split_blank (s : string) :
  Str.split s = [] <-> Str.blank s = true.
Proof.
  unfold Str.split, Str.runs.
  induction s as [|ch s IH]; simpl; [tauto |].
  destruct (Str.runs_go Str.isspace s) as [w ts].
  destruct (Str.isspace ch); simpl; [exact IH |].
  split; discriminate.
Qed.

(** ** The wrapper *)

Section WrapperFacts.

Variable glyph : string -> ascii -> Z.
Variable fontName : string.
Variables fontSize maxWidth : Q.

Local Abbreviation wrap := (wrap_tokens glyph fontName fontSize maxWidth).
Local Abbreviation fit := (fits glyph fontName fontSize maxWidth).

Lemma wrap_concat (toks cur : list string) :
  concat (wrap cur toks) = cur ++ toks.
Proof.
  revert cur.
  induction toks as [|t ts IH]; intros cur; simpl.
  - destruct cur; simpl; [reflexivity | now rewrite !app_nil_r].
  - destruct cur as [|x cur'].
    + now rewrite IH.
    + destruct (fits _ _ _ _ _).
      * now rewrite IH, <- app_assoc.
      * simpl. now rewrite IH.
Qed.

Lemma wrap_nonempty (toks cur : list string) :
  Forall (fun g => g <> []) (wrap cur toks).
Proof.
  revert cur.
  induction toks as [|t ts IH]; intros cur; simpl.
  - destruct cur; simpl; constructor; [discriminate | constructor].
  - destruct cur as [|x cur']; [apply IH |].
    destruct (fits _ _ _ _ _); [apply IH |].
    constructor; [discriminate | apply IH].
Qed.

(** The line being filled is the start of the first line returned. *)
Lemma wrap_head (toks cur : list string) :
  cur <> [] -> exists ext rest, wrap cur toks = (cur ++ ext) :: rest.
Proof.
  revert cur.
  induction toks as [|t ts IH]; intros cur Hcur; simpl.
  - destruct cur as [|x cur']; [congruence |].
    exists [], []. simpl. now rewrite app_nil_r.
  - destruct cur as [|x cur']; [congruence |].
    destruct (fits _ _ _ _ _).
    + destruct (IH ((x :: cur') ++ [t])) as (ext & rest & E); [discriminate |].
      exists (t :: ext), rest. rewrite E. now rewrite <- app_assoc.
    + exists [], (wrap_tokens glyph fontName fontSize maxWidth [t] ts).
      now rewrite app_nil_r.
Qed.

(** Every line returned fits, or is a single token. *)
Lemma wrap_fit (toks cur : list string) :
  cur = [] \/ fit cur = true \/ (exists t, cur = [t]) ->
  Forall (fun g => fit g = true \/ exists t, g = [t]) (wrap cur toks).
Proof.
  revert cur.
  induction toks as [|t ts IH]; intros cur Hcur; simpl.
  - destruct cur as [|x cur']; simpl; constructor; [| constructor].
    destruct Hcur as [H | H]; [discriminate | exact H].
  - destruct cur as [|x cur'].
    + apply IH. right. right. now exists t.
    + destruct (fits glyph fontName fontSize maxWidth ((x :: cur') ++ [t])) eqn:E.
      * apply IH. right. left. exact E.
      * constructor.
        -- destruct Hcur as [H | H]; [discriminate | exact H].
        -- apply IH. right. right. now exists t.
Qed.

(** A line is closed only when the token that opens the next line did not
    fit on it. *)
Lemma wrap_greedy (toks cur : list string) :
  forall pre g1 g2 post,
    wrap cur toks = pre ++ g1 :: g2 :: post ->
    exists t rest, g2 = t :: rest /\ fit (g1 ++ [t]) = false.
Proof.
  revert cur.
  induction toks as [|t ts IH]; intros cur pre g1 g2 post E.
  - simpl in E. destruct cur; simpl in E.
    + destruct pre; discriminate.
    + destruct pre as [|p pre]; [discriminate |].
      destruct pre; discriminate.
  - simpl in E. destruct cur as [|x cur'].
    + exact (IH _ _ _ _ _ E).
    + destruct (fits glyph fontName fontSize maxWidth ((x :: cur') ++ [t])) eqn:F.
      * exact (IH _ _ _ _ _ E).
      * destruct pre as [|p pre].
        -- simpl in E. injection E as E1 E2. subst g1.
           destruct (wrap_head ts [t]) as (ext & rest & H); [discriminate |].
           rewrite H in E2. injection E2 as E2 _. subst g2.
           exists t, ext. split; [reflexivity | exact F].
        -- simpl in E. injection E as _ E2.
           exact (IH _ _ _ _ _ E2).
Qed.

Lemma wrap_nil (toks : list string) :
  wrap [] toks = [] <-> toks = [].
Proof.
  split.
  - intros H. pose proof (wrap_concat toks []) as C.
    rewrite H in C. simpl in C. now symmetry.
  - intros ->. reflexivity.
Qed.

End WrapperFacts.

Lemma simpleSplit_nil glyph (text fontName : string) (fontSize maxWidth : Q) :
  simpleSplit glyph text fontName fontSize maxWidth = [] <->
  Str.blank text = true.
Proof.
  unfold simpleSplit. split; intros H.
  - apply map_eq_nil, wrap_nil in H. now apply split_blank.
  - apply split_blank in H. now rewrite H.
Qed.

Lemma fits_false glyph (fontName : string) (fontSize maxWidth : Q) line :
  fits glyph fontName fontSize maxWidth line = false ->
  maxWidth < stringWidth glyph (Str.join line) fontName fontSize.
Proof.
  unfold fits. intros H. apply Qnot_le_lt. intros L.
  apply Qle_bool_iff in L. congruence.
Qed.

(** C2. Wrap correctness. For every text (in particular every non-empty
    one) and fixed font, size and maximal width: the lines returned are the
    joins of consecutive groups of the text's whitespace-separated tokens,
    groups filled greedily (a group is closed only when the next token,
    added to it, would measure more than the maximal width); every line
    measures at most the maximal width unless it is a single token of the
    text that alone exceeds it; and joining the lines with single spaces
    and splitting on whitespace gives the tokens of the text, in order. *)
Theorem wrap_correctness glyph (text fontName : string) (fontSize maxWidth : Q) :
  let lines := simpleSplit glyph text fontName fontSize maxWidth in
  let width := fun s => stringWidth glyph s fontName fontSize in
  (exists groups : list (list string),
      lines = map Str.join groups /\
      concat groups = Str.split text /\
      Forall (fun g => g <> []) groups /\
      forall pre g1 g2 post,
        groups = pre ++ g1 :: g2 :: post ->
        exists t rest, g2 = t :: rest /\ maxWidth < width (Str.join (g1 ++ [t]))) /\
  Forall (fun line =>
            width line <= maxWidth \/
            (In line (Str.split text) /\ maxWidth < width line)) lines /\
  Str.split (Str.join lines) = Str.split text.
Proof.
  intros lines width. subst lines. unfold simpleSplit.
  set (groups := wrap_tokens glyph fontName fontSize maxWidth [] (Str.split text)).
  assert (C : concat groups = Str.split text)
    by apply (wrap_concat glyph fontName fontSize maxWidth (Str.split text) []).
  assert (N : Forall (fun g => g <> []) groups) by apply wrap_nonempty.
  split; [| split].
  - exists groups. repeat split; try assumption.
    intros pre g1 g2 post E.
    destruct (wrap_greedy glyph fontName fontSize maxWidth _ _ _ _ _ _ E)
      as (t & rest & -> & F).
    exists t, rest. split; [reflexivity | now apply fits_false].
  - apply List.Forall_forall. intros line Hin.
    apply in_map_iff in Hin as (g & <- & Hg).
    pose proof (wrap_fit glyph fontName fontSize maxWidth (Str.split text) []
                  (or_introl eq_refl)) as F.
    rewrite List.Forall_forall in F. destruct (F g Hg) as [Hfit | [t ->]].
    + left. now apply Qle_bool_iff.
    + change (Str.join [t]) with t.
      destruct (Qlt_le_dec maxWidth (width t)) as [L | L]; [right | now left].
      split; [| exact L].
      rewrite <- C. apply in_concat. exists [t]. split; [exact Hg | now left].
  - rewrite join_groups by exact N. rewrite C.
    apply split_join, split_tokens.
Qed.

(** Glyphs 5 points wide and room for 6 of them: two tokens share the
    first line, the ten-letter token is placed unsplit on a line of its
    own, and runs of spaces leave no trace. *)
Example wrap_example :
  simpleSplit (mono 500) "aaa bb  cc dddddddddd e" "Helvetica" 10 30
  = ["aaa bb"; "cc"; "dddddddddd"; "e"].
Proof. reflexivity. Qed.

Example split_example :
  Str.split (" WAI-ARIA  grid" +:+ String (ascii_of_nat 10) "roles ")
  = ["WAI-ARIA"; "grid"; "roles"].
Proof. reflexivity. Qed.

(** The width of a text is the sum of the widths of its parts, so measuring
    a line and adding up its tokens and spaces agree. *)
Lemma stringWidth_app glyph (a b fontName : string) (fontSize : Q) :
  stringWidth glyph (a +:+ b) fontName fontSize ==
  stringWidth glyph a fontName fontSize + stringWidth glyph b fontName fontSize.
Proof.
  induction a as [|ch a IH].
  - change (EmptyString +:+ b) with b. unfold stringWidth at 2. simpl.
    field.
  - rewrite append_cons. unfold stringWidth in *. cbn [glyphs].
    rewrite !inject_Z_plus. field_simplify_eq. field_simplify_eq in IH.
    lra.
Qed.

(** ** The cursor *)



Lemma draw_lines_c (x lh : Q) (lines : list string) (g : globals) :
  c (draw_lines x lh lines g) = c g ++ line_ops x (y g) lh lines.
Proof.
  unfold draw_lines. revert g.
  induction lines as [|line rest IH]; intros g; simpl.
  - now rewrite app_nil_r.
  - rewrite IH. simpl. now rewrite <- app_assoc.
Qed.


Lemma line_ops_length (x y0 lh : Q) (lines : list string) :
  length (line_ops x y0 lh lines) = length lines.
Proof.
  revert y0. induction lines as [|line rest IH]; intros y0; simpl;
    [reflexivity | now rewrite IH].
Qed.

Lemma drawn_app (a b : list op) : drawn (a ++ b) = drawn a ++ drawn b.
Proof. unfold drawn. apply flat_map_app. Qed.

Lemma drawn_line_ops (x y0 lh : Q) (lines : list string) :
  drawn (line_ops x y0 lh lines) = lines.
Proof.
  revert y0. induction lines as [|l rest IH]; intros y0;
    [reflexivity |].
  change (l :: drawn (line_ops x (y0 - lh) lh rest) = l :: rest).
  now rewrite IH.
Qed.

Lemma lowered_add (a b : nat) (lh y0 : Q) :
  lowered (a + b) lh y0 = lowered b lh (lowered a lh y0).
Proof.
  revert y0. induction a as [|a IH]; intros y0; [reflexivity |].
  simpl. apply IH.
Qed.

(** The [k]-th line is drawn at [x], after [k] subtractions of the line
    height from the starting cursor. *)
Lemma line_ops_nth_lowered (x lh : Q) (lines : list string) :
  forall (y0 : Q) (k : nat) (line : string),
    nth_error lines k = Some line ->
    nth_error (line_ops x y0 lh lines) k
    = Some (DrawString x (lowered k lh y0) line).
Proof.
  induction lines as [|l rest IH]; intros y0 k line H.
  - destruct k; discriminate.
  - destruct k as [|k]; simpl in *.
    + now injection H as ->.
    + exact (IH (y0 - lh) k line H).
Qed.

Lemma draw_lines_lowered (x lh : Q) (lines : list string) (g : globals) :
  y (draw_lines x lh lines g) = lowered (length lines) lh (y g).
Proof.
  unfold draw_lines. revert g.
  induction lines as [|line rest IH]; intros g; [reflexivity |].
  cbn [fold_left length lowered]. now rewrite IH.
Qed.

(** ** The paragraph with the binary64 cursor *)

Lemma binary64_draw_lines_c (x lh : float) (lines : list string)
    (g : Binary64.globals) :
  Binary64.c (Binary64.draw_lines x lh lines g) =
  Binary64.c g ++ Binary64.line_ops x (Binary64.y g) lh lines.
Proof.
  unfold Binary64.draw_lines. revert g.
  induction lines as [|line rest IH]; intros g; simpl.
  - now rewrite app_nil_r.
  - rewrite IH. simpl. now rewrite <- app_assoc.
Qed.

Lemma binary64_draw_lines_y (x lh : float) (lines : list string)
    (g : Binary64.globals) :
  Binary64.y (Binary64.draw_lines x lh lines g) =
  Binary64.lowered (length lines) lh (Binary64.y g).
Proof.
  unfold Binary64.draw_lines. revert g.
  induction lines as [|line rest IH]; intros g; [reflexivity |].
  cbn [fold_left length Binary64.lowered]. now rewrite IH.
Qed.

Lemma binary64_line_ops_length (x y0 lh : float) (lines : list string) :
  length (Binary64.line_ops x y0 lh lines) = length lines.
Proof.
  revert y0. induction lines as [|line rest IH]; intros y0; simpl;
    [reflexivity | now rewrite IH].
Qed.

Lemma binary64_line_ops_nth (x lh : float) (lines : list string) :
  forall (y0 : float) (k : nat) (line : string),
    nth_error lines k = Some line ->
    nth_error (Binary64.line_ops x y0 lh lines) k
    = Some (Binary64.DrawString x (Binary64.lowered k lh y0) line).
Proof.
  induction lines as [|l rest IH]; intros y0 k line H.
  - destruct k; discriminate.
  - destruct k as [|k]; simpl in *.
    + now injection H as ->.
    + exact (IH (y0 - lh)%float k line H).
Qed.

(** C7, as amended. Paragraph advance. With the cursor in binary64 as the
    program has it, [draw_paragraph] selects the body font, wraps the text
    against the full content width and makes exactly one [DrawString] per
    wrapped line, each at the left margin; it subtracts the line height
    from the cursor once after each line, so the [k]-th line is drawn at
    the cursor after [k] rounded subtractions and the final cursor is the
    starting one after as many rounded subtractions as there are wrapped
    lines. For an empty or whitespace-only text the wrap is empty, nothing
    is drawn and the cursor is unchanged. *)
Theorem paragraph_subtracts_per_line glyph (text : string)
    (font_size line_height : float) (g : Binary64.globals) :
  let lines := simpleSplit glyph text "Helvetica"
                 (Binary64.exact font_size)
                 (Binary64.exact Binary64.CONTENT_WIDTH) in
  let g' := Binary64.draw_paragraph glyph text font_size line_height g in
  (exists ops : list Binary64.op,
      Binary64.c g' =
        Binary64.c g ++ Binary64.SetFont "Helvetica" font_size :: ops /\
      length ops = length lines /\
      forall k line,
        nth_error lines k = Some line ->
        nth_error ops k =
          Some (Binary64.DrawString Binary64.MARGIN
                  (Binary64.lowered k line_height (Binary64.y g)) line)) /\
  Binary64.y g' = Binary64.lowered (length lines) line_height (Binary64.y g) /\
  (Str.blank text = true ->
   lines = [] /\
   Binary64.c g' = Binary64.c g ++ [Binary64.SetFont "Helvetica" font_size] /\
   Binary64.y g' = Binary64.y g).
Proof.
  intros lines g'. subst g'. unfold Binary64.draw_paragraph. fold lines.
  split; [| split].
  - exists (Binary64.line_ops Binary64.MARGIN (Binary64.y g) line_height lines).
    rewrite binary64_draw_lines_c. simpl. rewrite <- app_assoc.
    split; [reflexivity |]. split; [apply binary64_line_ops_length |].
    intros k line H. now apply binary64_line_ops_nth.
  - now rewrite binary64_draw_lines_y.
  - intros B. assert (E : lines = []) by now apply simpleSplit_nil.
    rewrite E. repeat split.
Qed.

(** Three one-letter tokens under a metric so wide that each takes a line,
    a line height of [0.1] and the cursor at the top of the page, [750]:
    three lines are drawn, and the cursor ends at [749.6999999999999], which
    is neither [750] less three times the line height in exact arithmetic
    nor the binary64 value of [750 - 0.1 * 3]. *)
Lemma paragraph_advance_not_exact :
  simpleSplit (mono 100000) "a b c" "Helvetica"
    (Binary64.exact 10) (Binary64.exact Binary64.CONTENT_WIDTH)
    = ["a"; "b"; "c"] /\
  ~ (Binary64.exact
       (Binary64.y (Binary64.draw_paragraph (mono 100000) "a b c" 10
                      0x1.999999999999ap-4 Binary64.start))
     == Binary64.exact (Binary64.y Binary64.start)
        - Binary64.exact 0x1.999999999999ap-4 * Qnat 3) /\
  PrimFloat.eqb
    (Binary64.y (Binary64.draw_paragraph (mono 100000) "a b c" 10
                   0x1.999999999999ap-4 Binary64.start))
    (Binary64.y Binary64.start - 0x1.999999999999ap-4 * 3)%float = false.
Proof.
  split; [vm_compute; reflexivity |].
  split; [vm_compute; discriminate | vm_compute; reflexivity].
Qed.

(** C9. Title and heading always take their line. For every text, the
    empty one included, [draw_title] makes exactly one [DrawString] (at the
    left margin and the current cursor, after selecting its font) and moves
    the cursor down by 22; [draw_heading] does the same with its font and
    14. The wrapping primitive [draw_paragraph], given the empty text,
    draws nothing and leaves the cursor where it was. *)
Theorem title_heading_advance glyph (text : string) (g : globals) :
  (c (draw_title text g) =
     c g ++ [SetFont "Helvetica-Bold" 18; DrawString MARGIN (y g) text] /\
   y (draw_title text g) = y g - 22) /\
  (c (draw_heading text g) =
     c g ++ [SetFont "Helvetica-Bold" 11.5; DrawString MARGIN (y g) text] /\
   y (draw_heading text g) = y g - 14) /\
  (drawn (c (draw_title EmptyString g)) = drawn (c g) ++ [EmptyString] /\
   drawn (c (draw_heading EmptyString g)) = drawn (c g) ++ [EmptyString]) /\
  (forall fs lh,
      drawn (c (draw_paragraph glyph EmptyString fs lh g)) = drawn (c g) /\
      y (draw_paragraph glyph EmptyString fs lh g) = y g).
Proof.
  unfold draw_title, draw_heading. simpl.
  rewrite <- !app_assoc. simpl.
  repeat split; try reflexivity.
  - rewrite drawn_app. reflexivity.
  - rewrite drawn_app. reflexivity.
  - unfold draw_paragraph. simpl. rewrite drawn_app. simpl. apply app_nil_r.
Qed.

(** ** List items *)

Lemma item_ops_length (x_rest y0 lh : Q) (marker : string) (wrapped : list string) :
  length (item_ops x_rest y0 lh marker wrapped) = length wrapped.
Proof.
  destruct wrapped as [|first rest]; simpl; [reflexivity |].
  now rewrite line_ops_length.
Qed.

Lemma drawn_item_ops (x_rest y0 lh : Q) (marker : string) (wrapped : list string) :
  drawn (item_ops x_rest y0 lh marker wrapped) = marked marker wrapped.
Proof.
  destruct wrapped as [|first rest]; [reflexivity |].
  change ((marker +:+ first) :: drawn (line_ops x_rest (y0 - lh) lh rest)
          = (marker +:+ first) :: rest).
  now rewrite drawn_line_ops.
Qed.

Section ItemFacts.

Variable glyph : string -> ascii -> Z.
Variables font_size line_height : Q.

Lemma draw_bullet_c (text_width : Q) (g : globals) (item : string) :
  c (draw_bullet glyph font_size line_height text_width g item) =
  c g ++ item_ops (MARGIN + bullet_indent) (y g) line_height "- "
           (simpleSplit glyph item "Helvetica" font_size text_width).
Proof.
  unfold draw_bullet.
  destruct (simpleSplit glyph item "Helvetica" font_size text_width)
    as [|first rest]; simpl; [now rewrite app_nil_r |].
  rewrite draw_lines_c. simpl. now rewrite <- app_assoc.
Qed.


Lemma draw_bullet_blank (text_width : Q) (g : globals) (item : string) :
  Str.blank item = true ->
  draw_bullet glyph font_size line_height text_width g item = g.
Proof.
  intros B. unfold draw_bullet.
  now rewrite (proj2 (simpleSplit_nil glyph item "Helvetica" font_size text_width) B).
Qed.

Lemma draw_number_c (g : globals) (idx : nat) (item : string) :
  c (draw_number glyph font_size line_height g (idx, item)) =
  c g ++ item_ops (MARGIN + stringWidth glyph (prefix_of idx) "Helvetica" font_size)
           (y g) line_height (prefix_of idx)
           (simpleSplit glyph item "Helvetica" font_size
                        (number_budget glyph font_size idx)).
Proof.
  unfold draw_number, number_budget.
  destruct (simpleSplit glyph item "Helvetica" font_size _)
    as [|first rest]; simpl; [now rewrite app_nil_r |].
  rewrite draw_lines_c. simpl. now rewrite <- app_assoc.
Qed.


Lemma fold_bullets_filter (text_width : Q) (items : list string) (g : globals) :
  fold_left (draw_bullet glyph font_size line_height text_width) items g =
  fold_left (draw_bullet glyph font_size line_height text_width)
            (List.filter (fun item => negb (Str.blank item)) items) g.
Proof.
  revert g. induction items as [|item rest IH]; intros g; [reflexivity |].
  simpl. destruct (Str.blank item) eqn:B; simpl.
  - now rewrite draw_bullet_blank.
  - apply IH.
Qed.

End ItemFacts.

(** C4. Bullet skip policy. An item wraps to no line exactly when it is
    empty or whitespace-only, and [draw_bullets] treats such items as if
    they were not in the list: the canvas and the cursor end up as for the
    list without them (no marker drawn, no advance). For the items
    (empty), ["  "], ["hello"] exactly one line, ["- hello"], is drawn, at the
    left margin and the starting cursor, and the cursor moves down by one
    line height. *)
Theorem bullets_skip glyph (font_size line_height : Q) (g : globals) :
  (forall item,
      simpleSplit glyph item "Helvetica" font_size (CONTENT_WIDTH - bullet_indent) = []
      <-> Str.blank item = true) /\
  (forall items,
      draw_bullets glyph items font_size line_height g =
      draw_bullets glyph (List.filter (fun item => negb (Str.blank item)) items)
                   font_size line_height g) /\
  (let g' := draw_bullets glyph [EmptyString; "  "; "hello"]
                          font_size line_height g in
   c g' = c g ++ [SetFont "Helvetica" font_size;
                  DrawString MARGIN (y g) "- hello"] /\
   drawn (c g') = drawn (c g) ++ ["- hello"] /\
   y g' = y g - line_height).
Proof.
  split; [| split].
  - intros item. apply simpleSplit_nil.
  - intros items. unfold draw_bullets. apply fold_bullets_filter.
  - cbv zeta. unfold draw_bullets. simpl.
    rewrite <- app_assoc. simpl. repeat split.
    rewrite drawn_app. reflexivity.
Qed.

(** ** Numbered lists *)

Lemma enumerate_nth {A : Type} (items : list A) :
  forall (start i : nat) (item : A),
    nth_error items i = Some item <->
    nth_error (enumerate start items) i = Some ((start + i)%nat, item).
Proof.
  induction items as [|x rest IH]; intros start i item.
  - destruct i; simpl; split; discriminate.
  - destruct i as [|i]; simpl.
    + rewrite Nat.add_0_r. split; intros H; injection H as ->; reflexivity.
    + rewrite (IH (S start) i item).
      now replace (S start + i)%nat with (start + S i)%nat by lia.
Qed.

Section NumberedFacts.

Variable glyph : string -> ascii -> Z.
Variables font_size line_height : Q.

Local Abbreviation step := (draw_number glyph font_size line_height).
Local Abbreviation wrapped_at idx item :=
  (simpleSplit glyph item "Helvetica" font_size (number_budget glyph font_size idx)).
Local Abbreviation ops_at idx item y0 :=
  (item_ops (MARGIN + stringWidth glyph (prefix_of idx) "Helvetica" font_size)
            y0 line_height (prefix_of idx) (wrapped_at idx item)).

Lemma fold_numbers_extends (entries : list (nat * string)) (g : globals) :
  exists ext, c (fold_left step entries g) = c g ++ ext.
Proof.
  revert g. induction entries as [|[idx item] rest IH]; intros g; cbn [fold_left].
  - exists []. now rewrite app_nil_r.
  - destruct (IH (step g (idx, item))) as (ext & E).
    rewrite E, draw_number_c. eexists. now rewrite <- app_assoc.
Qed.

Lemma fold_numbers_drawn (entries : list (nat * string)) (g : globals) :
  drawn (c (fold_left step entries g)) =
  drawn (c g) ++
  flat_map (fun e => marked (prefix_of (fst e)) (wrapped_at (fst e) (snd e)))
           entries.
Proof.
  revert g. induction entries as [|[idx item] rest IH]; intros g; cbn [fold_left flat_map].
  - now rewrite app_nil_r.
  - rewrite IH, draw_number_c, drawn_app, drawn_item_ops.
    now rewrite <- app_assoc.
Qed.

(** The calls for the [i]-th entry sit together on the final canvas. *)
Lemma fold_numbers_nth (entries : list (nat * string)) :
  forall (g : globals) (i idx : nat) (item : string),
    nth_error entries i = Some (idx, item) ->
    exists gi after,
      c (fold_left step entries g) = c gi ++ ops_at idx item (y gi) ++ after.
Proof.
  induction entries as [|e rest IH]; intros g i idx item H.
  - destruct i; discriminate.
  - destruct i as [|i]; simpl in H.
    + injection H as ->. cbn [fold_left].
      destruct (fold_numbers_extends rest (step g (idx, item))) as (ext & E).
      exists g, ext. rewrite E, draw_number_c. now rewrite <- app_assoc.
    + cbn [fold_left]. exact (IH (step g e) i idx item H).
Qed.

End NumberedFacts.

(** C5. Numbered ordinals are positional. [enumerate] gives the item at
    index [i] the ordinal [i + 1] whatever the items are; the texts
    [draw_numbered] draws are, item by item in input order, the wrapped
    lines of the item with the prefix of its own ordinal on the first one,
    and nothing for an item that wraps to no line; so a non-blank item at
    index [i] has its first line drawn at the left margin with the ordinal
    [i + 1], however many items before it were skipped. For the items
    ["a"], (empty), ["b"] the lines drawn are ["1. a"] and ["3. b"]. *)
Theorem numbered_ordinals glyph (items : list string)
    (font_size line_height : Q) (g : globals) :
  let g' := draw_numbered glyph items font_size line_height g in
  let wrapped := fun idx item =>
    simpleSplit glyph item "Helvetica" font_size
                (number_budget glyph font_size idx) in
  (forall i item,
      nth_error items i = Some item <->
      nth_error (enumerate 1 items) i = Some (S i, item)) /\
  drawn (c g') =
    drawn (c g) ++
    flat_map (fun e => marked (Str.str (fst e) +:+ ". ") (wrapped (fst e) (snd e)))
             (enumerate 1 items) /\
  (forall i item first rest,
      nth_error items i = Some item ->
      wrapped (S i) item = first :: rest ->
      exists y0,
        In (DrawString MARGIN y0 ((Str.str (S i) +:+ ". ") +:+ first)) (c g')) /\
  drawn (c (draw_numbered glyph ["a"; EmptyString; "b"] font_size line_height g))
    = drawn (c g) ++ ["1. a"; "3. b"].
Proof.
  intros g' wrapped. subst g'. unfold draw_numbered.
  split; [| split; [| split]].
  - intros i item. apply (enumerate_nth items 1 i item).
  - rewrite fold_numbers_drawn. simpl. rewrite drawn_app. simpl.
    now rewrite app_nil_r.
  - intros i item first rest Hi Hw.
    apply (enumerate_nth items 1 i item) in Hi.
    destruct (fold_numbers_nth glyph font_size line_height _
                (setFont "Helvetica" font_size g) _ _ _ Hi) as (gi & after & E).
    exists (y gi). rewrite E.
    change (simpleSplit glyph item "Helvetica" font_size
              (number_budget glyph font_size (1 + i))) with (wrapped (S i) item).
    rewrite Hw. simpl. apply in_or_app. right. now left.
  - simpl. rewrite <- !app_assoc. rewrite drawn_app. reflexivity.
Qed.

(** ** Width of the ordinal prefix *)













(** ** Monotonic cursor *)















Lemma document_heights : Forall heights_nonneg document.
Proof. repeat constructor; unfold heights_nonneg; lra. Qed.


(** ** The script: overflow guard, output and directories *)

Lemma Qlt_bool_iff (a b : Q) : Qlt_bool a b = true <-> a < b.
Proof.
  unfold Qlt_bool. rewrite negb_true_iff. split; intros H.
  - apply Qnot_le_lt. intros L. apply Qle_bool_iff in L. congruence.
  - destruct (Qle_bool b a) eqn:E; [| reflexivity].
    apply Qle_bool_iff in E. lra.
Qed.

Lemma Qlt_bool_false (a b : Q) : Qlt_bool a b = false <-> ~ a < b.
Proof.
  rewrite <- Qlt_bool_iff. destruct (Qlt_bool a b); split; congruence.
Qed.

(** C1. Overflow guard. Once the drawing calls have run, the script ends
    with the overflow error exactly when the final cursor is strictly below
    the bottom margin. In that case no file is written (every file that
    existed, one at the output path included, is as it was) and nothing is
    printed; otherwise the canvas is saved at the output path, the other
    files are as they were, and the output path is printed. *)
Theorem overflow_guard glyph (doc : list call) (w : world) :
  let g := run_calls glyph doc start in
  let r := script_with glyph doc w in
  ((exists yf, fst r = RuntimeError yf) <-> y g < MARGIN) /\
  ((fst r = RuntimeError (y g) /\ y g < MARGIN /\
    files (snd r) = files w /\ stdout (snd r) = stdout w) \/
   (fst r = Finished /\ ~ y g < MARGIN /\
    files (snd r) = <[OUTPUT_PATH := c g]> (files w) /\
    stdout (snd r) = stdout w ++ [OUTPUT_PATH])).
Proof.
  intros g r. subst r. unfold script_with. fold g.
  destruct (Qlt_bool (y g) MARGIN) eqn:E; simpl.
  - apply Qlt_bool_iff in E. split.
    + split; [intros _; exact E | intros _; now exists (y g)].
    + left. repeat split. exact E.
  - apply Qlt_bool_false in E. split.
    + split; [intros [yf H]; discriminate | intros H; contradiction].
    + right. repeat split. exact E.
Qed.

(** The fixed document under a metric so wide that every token takes a
    line: the run fails, and the file of the earlier run is untouched. *)
Example overflow_keeps_old_file :
  let r := script (mono 5000) world_with_old_file in
  match fst r with
  | RuntimeError yf => yf < MARGIN
  | Finished => False
  end /\
  files (snd r) !! OUTPUT_PATH = Some old_file /\
  stdout (snd r) = [].
Proof. vm_compute. repeat split. Qed.

(** The fixed document under the sample metric fits the page. *)
Example sample_run_finishes :
  let r := script sample_metric world_with_old_file in
  fst r = Finished /\
  files (snd r) !! OUTPUT_PATH = Some (c (run_calls sample_metric document start)) /\
  stdout (snd r) = [OUTPUT_PATH].
Proof. vm_compute. repeat split. Qed.

Lemma mkdir_dirs (w : world) :
  dirs (mkdir_parents (Path.parent OUTPUT_PATH) w) =
  dirs w ∪ {[ "output"; "output/pdf" ]}.
Proof.
  unfold mkdir_parents. cbn [dirs].
  change (Path.chain (Path.parent OUTPUT_PATH)) with ["output"; "output/pdf"].
  cbn [list_to_set]. now rewrite union_empty_r_L.
Qed.

(** C10. The directories survive a failed run. Whatever the drawing calls
    do, the run leaves the directories that existed plus the parent
    directory of the output path and its ancestors: the same set for every
    sequence of drawing calls. In particular, when the run ends with the
    overflow error and writes no file, the parent directory exists all the
    same. *)
Theorem mkdir_survives_overflow glyph (doc : list call) (w : world) :
  let r := script_with glyph doc w in
  dirs (snd r) = dirs w ∪ {[ "output"; "output/pdf" ]} /\
  (forall doc', dirs (snd (script_with glyph doc' w)) = dirs (snd r)) /\
  (forall yf, fst r = RuntimeError yf ->
     "output/pdf" ∈ dirs (snd r) /\ "output" ∈ dirs (snd r) /\
     files (snd r) = files w).
Proof.
  intros r. subst r. unfold script_with.
  split; [| split].
  - destruct (Qlt_bool _ _);
      cbn [fst snd dirs files stdout save print]; apply mkdir_dirs.
  - intros doc'.
    destruct (Qlt_bool (y (run_calls glyph doc' start)) MARGIN);
      destruct (Qlt_bool (y (run_calls glyph doc start)) MARGIN); reflexivity.
  - intros yf.
    destruct (Qlt_bool (y (run_calls glyph doc start)) MARGIN);
      cbn [fst snd]; [| discriminate].
    intros _. rewrite mkdir_dirs.
    split; [| split; [| reflexivity]].
    + apply elem_of_union_r, elem_of_union_r, elem_of_singleton. reflexivity.
    + apply elem_of_union_r, elem_of_union_l, elem_of_singleton. reflexivity.
Qed.

(** The fixed document under the wide metric, started in an empty world:
    the run fails, no file exists afterwards, the directories do. *)
Example overflow_leaves_directories :
  let r := script (mono 5000) empty_world in
  match fst r with
  | RuntimeError _ => True
  | Finished => False
  end /\
  files (snd r) !! OUTPUT_PATH = None /\
  bool_decide ("output/pdf" ∈ dirs (snd r)) = true.
Proof.
  cbv zeta. split; [vm_compute; exact I |]. split; vm_compute; reflexivity.
Qed.

(** Twelve items under the sample metric: the ordinals run from 1 to 12,
    and the one continuation line, of item 12, starts at the left margin
    plus the width of the prefix of item 12. *)
Example twelve_items_drawn :
  let g' := draw_numbered sample_metric twelve_items 9.6 11.5 start in
  drawn (c g') =
    ["1. one"; "2. two"; "3. three"; "4. four"; "5. five"; "6. six";
     "7. seven"; "8. eight"; "9. nine"; "10. ten"; "11. eleven";
     "12. Provide data through setData(...) or the data property; listen for cell-change/selection-change/data-change";
     "events."] /\
  match List.last (c g') (SetFont EmptyString 0) with
  | DrawString x _ text =>
      x == MARGIN + stringWidth sample_metric "12. " "Helvetica" 9.6 /\
      text = "events."
  | SetFont _ _ => False
  end.
Proof. vm_compute. repeat split. Qed.

(** * Further properties of the layout code *)

(** ** What a primitive adds to the canvas *)

Lemma line_ops_draw (x y0 lh : Q) (lines : list string) :
  Forall is_draw (line_ops x y0 lh lines).
Proof.
  revert y0. induction lines as [|l rest IH]; intros y0; simpl;
    constructor; [exact I | apply IH].
Qed.

Lemma item_ops_draw (x_rest y0 lh : Q) (marker : string) (wrapped : list string) :
  Forall is_draw (item_ops x_rest y0 lh marker wrapped).
Proof.
  destruct wrapped as [|first rest]; simpl; constructor;
    [exact I | apply line_ops_draw].
Qed.

Lemma draws_nothing : draws (fun g => g) [].
Proof.
  intros g. exists []. rewrite app_nil_r. repeat split. constructor.
Qed.

Lemma draws_then (f1 f2 : globals -> globals) (t1 t2 : list string) :
  draws f1 t1 -> draws f2 t2 -> draws (fun g => f2 (f1 g)) (t1 ++ t2).
Proof.
  intros H1 H2 g.
  destruct (H1 g) as (e1 & C1 & D1 & T1).
  destruct (H2 (f1 g)) as (e2 & C2 & D2 & T2).
  exists (e1 ++ e2). split; [| split].
  - now rewrite C2, C1, <- app_assoc.
  - apply Forall_app; now split.
  - now rewrite drawn_app, T1, T2.
Qed.

Lemma draws_fold {A : Type} (f : globals -> A -> globals)
    (texts : A -> list string) (items : list A) :
  (forall a, draws (fun g => f g a) (texts a)) ->
  draws (fun g => fold_left f items g) (flat_map texts items).
Proof.
  intros H. induction items as [|a rest IH]; [exact draws_nothing |].
  exact (draws_then _ _ _ _ (H a) IH).
Qed.

Lemma draws_y_sub (d : Q) : draws (y_sub d) [].
Proof.
  intros g. exists []. simpl. rewrite app_nil_r. repeat split. constructor.
Qed.

Lemma draws_drawString (x : Q) (text : string) :
  draws (fun g => drawString x (y g) text g) [text].
Proof.
  intros g. exists [DrawString x (y g) text]. repeat split.
  constructor; [exact I | constructor].
Qed.

Lemma draws_draw_lines (x lh : Q) (lines : list string) :
  draws (draw_lines x lh lines) lines.
Proof.
  intros g. exists (line_ops x (y g) lh lines).
  split; [apply draw_lines_c |].
  split; [apply line_ops_draw | apply drawn_line_ops].
Qed.

Lemma draws_bullet glyph (fs lh tw : Q) (item : string) :
  draws (fun g => draw_bullet glyph fs lh tw g item)
        (marked "- " (simpleSplit glyph item "Helvetica" fs tw)).
Proof.
  intros g. eexists. split; [apply draw_bullet_c |].
  split; [apply item_ops_draw | apply drawn_item_ops].
Qed.

Lemma draws_number glyph (fs lh : Q) (entry : nat * string) :
  draws (fun g => draw_number glyph fs lh g entry)
        (marked (prefix_of (fst entry))
                (simpleSplit glyph (snd entry) "Helvetica" fs
                             (number_budget glyph fs (fst entry)))).
Proof.
  destruct entry as [idx item]. intros g. eexists.
  split; [apply draw_number_c |].
  split; [apply item_ops_draw | apply drawn_item_ops].
Qed.

(** ** Fonts *)

Lemma font_after_app (cur : option font) (a b : list op) :
  font_after cur (a ++ b) = font_after (font_after cur a) b.
Proof.
  revert cur. induction a as [|o a IH]; intros cur; [reflexivity |].
  destruct o; simpl; apply IH.
Qed.

Lemma drawn_in_app (cur : option font) (a b : list op) :
  drawn_in cur (a ++ b) = drawn_in cur a ++ drawn_in (font_after cur a) b.
Proof.
  revert cur. induction a as [|o a IH]; intros cur; [reflexivity |].
  destruct o; simpl; [apply IH | now rewrite IH].
Qed.

Lemma only_draws_font (cur : option font) (ext : list op) :
  Forall is_draw ext ->
  font_after cur ext = cur /\
  drawn_in cur ext = map (fun t => (cur, t)) (drawn ext).
Proof.
  induction 1 as [|o ext Ho Hext [IH1 IH2]]; [now split |].
  destruct o as [name size | x y0 text]; [destruct Ho |].
  simpl. split; [exact IH1 |].
  change (drawn (DrawString x y0 text :: ext)) with (text :: drawn ext).
  simpl. now rewrite IH2.
Qed.

(** A primitive that selects a font and then only draws: its texts are all
    drawn in that font, which stays in effect. *)
Lemma font_then_draws (f : globals -> globals) (texts : list string)
    (name : string) (size : Q) :
  draws f texts ->
  forall g cur,
    let g' := f (setFont name size g) in
    drawn (c g') = drawn (c g) ++ texts /\
    drawn_in cur (c g') =
      drawn_in cur (c g) ++ map (fun t => (Some (name, size), t)) texts /\
    font_after cur (c g') = Some (name, size).
Proof.
  intros H g cur g'. subst g'.
  destruct (H (setFont name size g)) as (ext & C & D & T).
  destruct (only_draws_font (Some (name, size)) ext D) as [F1 F2].
  rewrite C. simpl c. split; [| split].
  - rewrite !drawn_app, T. simpl. now rewrite app_nil_r.
  - rewrite !drawn_in_app, !font_after_app. simpl.
    rewrite app_nil_r, F2, T. reflexivity.
  - rewrite !font_after_app. simpl. exact F1.
Qed.

(** Each primitive draws in its own font. Whatever font was in effect
    before, [draw_title] draws its text in Helvetica-Bold 18 and
    [draw_heading] in Helvetica-Bold 11.5; the wrapping primitives draw
    every wrapped line in Helvetica at the very [font_size] the line was
    wrapped with, and [draw_numbered] measured the prefix with;
    [section_gap] draws nothing. *)
Theorem call_fonts glyph (g : globals) (cur : option font) :
  (forall text,
      drawn_in cur (c (draw_title text g)) =
      drawn_in cur (c g) ++ [(Some ("Helvetica-Bold", 18), text)]) /\
  (forall text,
      drawn_in cur (c (draw_heading text g)) =
      drawn_in cur (c g) ++ [(Some ("Helvetica-Bold", 11.5), text)]) /\
  (forall text fs lh,
      drawn_in cur (c (draw_paragraph glyph text fs lh g)) =
      drawn_in cur (c g) ++
      map (fun line => (Some ("Helvetica", fs), line))
          (simpleSplit glyph text "Helvetica" fs CONTENT_WIDTH)) /\
  (forall items fs lh,
      drawn_in cur (c (draw_bullets glyph items fs lh g)) =
      drawn_in cur (c g) ++
      map (fun line => (Some ("Helvetica", fs), line))
          (flat_map (fun item =>
                       marked "- " (simpleSplit glyph item "Helvetica" fs
                                      (CONTENT_WIDTH - 12)))
                    items)) /\
  (forall items fs lh,
      drawn_in cur (c (draw_numbered glyph items fs lh g)) =
      drawn_in cur (c g) ++
      map (fun line => (Some ("Helvetica", fs), line))
          (flat_map (fun entry : nat * string =>
                       marked (Str.str (fst entry) +:+ ". ")
                         (simpleSplit glyph (snd entry) "Helvetica" fs
                            (CONTENT_WIDTH -
                             stringWidth glyph (Str.str (fst entry) +:+ ". ")
                                         "Helvetica" fs)))
                    (enumerate 1 items))) /\
  drawn_in cur (c (section_gap g)) = drawn_in cur (c g).
Proof.
  split; [| split; [| split; [| split; [| split]]]].
  - intros text.
    exact (proj1 (proj2 (font_then_draws _ _ "Helvetica-Bold" 18
             (draws_then _ _ _ _ (draws_drawString MARGIN text) (draws_y_sub 22))
             g cur))).
  - intros text.
    exact (proj1 (proj2 (font_then_draws _ _ "Helvetica-Bold" 11.5
             (draws_then _ _ _ _ (draws_drawString MARGIN text) (draws_y_sub 14))
             g cur))).
  - intros text fs lh.
    exact (proj1 (proj2 (font_then_draws _ _ "Helvetica" fs
             (draws_draw_lines MARGIN lh
                (simpleSplit glyph text "Helvetica" fs CONTENT_WIDTH)) g cur))).
  - intros items fs lh.
    exact (proj1 (proj2 (font_then_draws _ _ "Helvetica" fs
             (draws_fold _ _ items
                (draws_bullet glyph fs lh (CONTENT_WIDTH - bullet_indent)))
             g cur))).
  - intros items fs lh.
    exact (proj1 (proj2 (font_then_draws _ _ "Helvetica" fs
             (draws_fold _ _ (enumerate 1 items) (draws_number glyph fs lh))
             g cur))).
  - reflexivity.
Qed.

(** ** Bulleted lists *)

Section BulletFacts.

Variable glyph : string -> ascii -> Z.
Variables font_size line_height : Q.

Local Abbreviation text_width := (CONTENT_WIDTH - bullet_indent).
Local Abbreviation bstep := (draw_bullet glyph font_size line_height text_width).
Local Abbreviation bwrap item :=
  (simpleSplit glyph item "Helvetica" font_size text_width).

Lemma fold_bullets_extends (items : list string) (g : globals) :
  exists ext, c (fold_left bstep items g) = c g ++ ext.
Proof.
  destruct (draws_fold _ _ items (draws_bullet glyph font_size line_height text_width) g)
    as (ext & E & _). now exists ext.
Qed.

(** The calls for the [i]-th item sit together on the final canvas. *)
Lemma fold_bullets_nth (items : list string) :
  forall (g : globals) (i : nat) (item : string),
    nth_error items i = Some item ->
    exists gi after,
      c (fold_left bstep items g) =
      c gi ++ item_ops (MARGIN + bullet_indent) (y gi) line_height "- " (bwrap item)
           ++ after.
Proof.
  induction items as [|e rest IH]; intros g i item H.
  - destruct i; discriminate.
  - destruct i as [|i]; simpl in H.
    + injection H as ->. cbn [fold_left].
      destruct (fold_bullets_extends rest (bstep g item)) as (ext & E).
      exists g, ext. rewrite E, draw_bullet_c. now rewrite <- app_assoc.
    + cbn [fold_left]. exact (IH (bstep g e) i item H).
Qed.

End BulletFacts.

(** Bullet layout. For the item at index [i] of [draw_bullets] that wraps
    to at least one line: the first line is drawn at the left margin with
    the marker ["- "] in front, and the continuation lines follow it on the
    canvas, without marker, each at the left margin plus the bullet indent
    of 12 and after one more subtraction of the line height each. *)
Theorem bullets_layout glyph (items : list string)
    (font_size line_height : Q) (g : globals) :
  let g' := draw_bullets glyph items font_size line_height g in
  forall i item first rest,
    nth_error items i = Some item ->
    simpleSplit glyph item "Helvetica" font_size (CONTENT_WIDTH - 12)
      = first :: rest ->
    exists n0 y0,
      nth_error (c g') n0 = Some (DrawString MARGIN y0 ("- " +:+ first)) /\
      forall k line,
        nth_error rest k = Some line ->
        nth_error (c g') (n0 + S k) =
          Some (DrawString (MARGIN + 12) (lowered (S k) line_height y0) line).
Proof.
  intros g' i item first rest Hi Hw.
  destruct (fold_bullets_nth glyph font_size line_height items
              (setFont "Helvetica" font_size g) i item Hi) as (gi & after & E).
  change (CONTENT_WIDTH - bullet_indent) with (CONTENT_WIDTH - 12) in E.
  rewrite Hw in E. cbn [item_ops] in E.
  exists (length (c gi)), (y gi).
  subst g'. unfold draw_bullets.
  change (CONTENT_WIDTH - bullet_indent) with (CONTENT_WIDTH - 12).
  rewrite E. split.
  - rewrite nth_error_app2 by lia. now rewrite Nat.sub_diag.
  - intros k line Hk.
    rewrite nth_error_app2 by lia.
    replace (length (c gi) + S k - length (c gi))%nat with (S k) by lia.
    cbn [app nth_error].
    rewrite nth_error_app1.
    + exact (line_ops_nth_lowered (MARGIN + bullet_indent) line_height rest
               (y gi - line_height) k line Hk).
    + rewrite line_ops_length. apply nth_error_Some. congruence.
Qed.

(** The second bullet of the document under glyphs of 500 units wraps to
    two lines: the first is drawn with its marker at the left margin, the
    word left over at the left margin plus 12, one line height lower. *)
Lemma bullets_layout_witness :
  exists n0 y0,
    nth_error
      (c (draw_bullets (mono 500)
            ["Implements WAI-ARIA grid roles.";
             "Supports Excel-like keyboard controls: arrows, Tab/Shift+Tab, Enter, Escape, Delete/Backspace, and Ctrl/Cmd shortcuts."]
            9.6 11.5 start)) n0
    = Some (DrawString MARGIN y0
              "- Supports Excel-like keyboard controls: arrows, Tab/Shift+Tab, Enter, Escape, Delete/Backspace, and Ctrl/Cmd") /\
    nth_error
      (c (draw_bullets (mono 500)
            ["Implements WAI-ARIA grid roles.";
             "Supports Excel-like keyboard controls: arrows, Tab/Shift+Tab, Enter, Escape, Delete/Backspace, and Ctrl/Cmd shortcuts."]
            9.6 11.5 start)) (n0 + 1)
    = Some (DrawString (MARGIN + 12) (y0 - 11.5) "shortcuts.").
Proof.
  destruct (bullets_layout (mono 500)
              ["Implements WAI-ARIA grid roles.";
               "Supports Excel-like keyboard controls: arrows, Tab/Shift+Tab, Enter, Escape, Delete/Backspace, and Ctrl/Cmd shortcuts."]
              9.6 11.5 start 1%nat
              "Supports Excel-like keyboard controls: arrows, Tab/Shift+Tab, Enter, Escape, Delete/Backspace, and Ctrl/Cmd shortcuts."
              "Supports Excel-like keyboard controls: arrows, Tab/Shift+Tab, Enter, Escape, Delete/Backspace, and Ctrl/Cmd"
              ["shortcuts."] eq_refl) as (n0 & y0 & H0 & Hk).
  - vm_compute. reflexivity.
  - exists n0, y0. split; [exact H0 |].
    exact (Hk 0%nat "shortcuts." eq_refl).
Defined.

(** ** Totals of the list primitives *)

(** A fold of steps that each subtract the line height once per line of
    their item, and make as many canvas calls, subtracts it once per line
    of all the items. *)
Lemma fold_lowered {A : Type} (f : globals -> A -> globals) (lh : Q)
    (lines : A -> list string) (items : list A) :
  (forall a g, y (f g a) = lowered (length (lines a)) lh (y g) /\
               length (c (f g a)) = (length (c g) + length (lines a))%nat) ->
  forall g,
    y (fold_left f items g) = lowered (length (flat_map lines items)) lh (y g) /\
    length (c (fold_left f items g))
    = (length (c g) + length (flat_map lines items))%nat.
Proof.
  intros H. induction items as [|a rest IH]; intros g.
  - simpl. split; [reflexivity | lia].
  - cbn [fold_left flat_map].
    destruct (H a g) as [Y1 C1]. destruct (IH (f g a)) as [Y2 C2].
    rewrite length_app, lowered_add. split.
    + now rewrite Y2, Y1.
    + rewrite C2, C1. lia.
Qed.

Lemma draw_bullet_lowered glyph (fs lh tw : Q) (item : string) (g : globals) :
  y (draw_bullet glyph fs lh tw g item)
  = lowered (length (simpleSplit glyph item "Helvetica" fs tw)) lh (y g) /\
  length (c (draw_bullet glyph fs lh tw g item))
  = (length (c g) + length (simpleSplit glyph item "Helvetica" fs tw))%nat.
Proof.
  split.
  - unfold draw_bullet.
    destruct (simpleSplit glyph item "Helvetica" fs tw) as [|first rest];
      [reflexivity |].
    now rewrite draw_lines_lowered.
  - now rewrite draw_bullet_c, length_app, item_ops_length.
Qed.


(** Total of a bulleted list. [draw_bullets] subtracts the line height from
    the cursor once for every wrapped line of its items, one subtraction
    after the other; it makes one [DrawString] per wrapped line after its
    one [SetFont], and draws, item by item, the wrapped lines with ["- "]
    in front of the first. *)
Theorem bullets_total glyph (items : list string)
    (font_size line_height : Q) (g : globals) :
  let wrapped := fun item =>
    simpleSplit glyph item "Helvetica" font_size (CONTENT_WIDTH - 12) in
  let total := length (flat_map wrapped items) in
  let g' := draw_bullets glyph items font_size line_height g in
  y g' = lowered total line_height (y g) /\
  length (c g') = (length (c g) + 1 + total)%nat /\
  drawn (c g') = drawn (c g) ++ flat_map (fun item => marked "- " (wrapped item)) items.
Proof.
  intros wrapped total g'. subst g'. unfold draw_bullets.
  change (CONTENT_WIDTH - bullet_indent) with (CONTENT_WIDTH - 12).
  destruct (fold_lowered _ line_height wrapped items
              (fun a g0 => draw_bullet_lowered glyph font_size line_height
                             (CONTENT_WIDTH - 12) a g0)
              (setFont "Helvetica" font_size g)) as [Y C].
  split; [exact Y |]. split.
  - rewrite C. simpl. rewrite length_app. simpl. fold total. lia.
  - destruct (draws_fold _ _ items
                (draws_bullet glyph font_size line_height (CONTENT_WIDTH - 12))
                (setFont "Helvetica" font_size g)) as (ext & E & _ & T).
    rewrite E. simpl c. rewrite !drawn_app, T. simpl. now rewrite app_nil_r.
Qed.


(** ** The canvas only grows *)

Lemma run_call_extends glyph (k : call) (g : globals) :
  exists ext, c (run_call glyph g k) = c g ++ ext.
Proof.
  destruct k as [text | text | text fs lh | items fs lh | items fs lh |]; simpl.
  - eexists. rewrite <- app_assoc. reflexivity.
  - eexists. rewrite <- app_assoc. reflexivity.
  - unfold draw_paragraph. rewrite draw_lines_c. simpl.
    eexists. rewrite <- app_assoc. reflexivity.
  - unfold draw_bullets.
    destruct (fold_bullets_extends glyph fs lh items (setFont "Helvetica" fs g))
      as (ext & E).
    rewrite E. simpl. eexists. rewrite <- app_assoc. reflexivity.
  - unfold draw_numbered.
    destruct (fold_numbers_extends glyph fs lh (enumerate 1 items)
                (setFont "Helvetica" fs g)) as (ext & E).
    rewrite E. simpl. eexists. rewrite <- app_assoc. reflexivity.
  - exists []. now rewrite app_nil_r.
Qed.

Lemma run_calls_extends glyph (ks : list call) (g : globals) :
  exists ext, c (run_calls glyph ks g) = c g ++ ext.
Proof.
  revert g. induction ks as [|k ks IH]; intros g.
  - exists []. simpl. now rewrite app_nil_r.
  - unfold run_calls. cbn [fold_left].
    destruct (IH (run_call glyph g k)) as (e2 & E2).
    destruct (run_call_extends glyph k g) as (e1 & E1).
    exists (e1 ++ e2). unfold run_calls in E2. rewrite E2, E1.
    now rewrite <- app_assoc.
Qed.

(** The canvas only grows. Whatever calls run, and split at any point, what
    the earlier calls put on the canvas is still there afterwards, at the
    same place in the log and unchanged: no primitive erases, moves or
    redraws an earlier line. *)
Theorem canvas_only_grows glyph (before after : list call) (g : globals) :
  let mid := run_calls glyph before g in
  let final := run_calls glyph (before ++ after) g in
  (exists ext, c final = c mid ++ ext) /\
  (length (c mid) <= length (c final))%nat /\
  (forall n o, nth_error (c mid) n = Some o -> nth_error (c final) n = Some o).
Proof.
  intros mid final. subst final. unfold run_calls. rewrite fold_left_app.
  fold (run_calls glyph before g). fold mid. fold (run_calls glyph after mid).
  destruct (run_calls_extends glyph after mid) as (ext & E).
  split; [now exists ext |]. rewrite E. split.
  - rewrite length_app. lia.
  - intros n o H. rewrite nth_error_app1; [exact H |].
    apply nth_error_Some. congruence.
Qed.

(** ** Everything drawn lies between the cursor and the top *)

Lemma baseline_lower (lo lo' hi : Q) (o : op) :
  lo' <= lo -> baseline_within lo hi o -> baseline_within lo' hi o.
Proof.
  intros L. destruct o as [name size | x y0 text]; simpl; [trivial |].
  intros [H1 H2]. split; [lra | exact H2].
Qed.

Lemma tidy_setFont (top : Q) (name : string) (size : Q) (g : globals) :
  tidy top g -> tidy top (setFont name size g).
Proof.
  intros [T F]. split; [exact T |]. simpl.
  apply Forall_app. split; [exact F |].
  constructor; [exact I | constructor].
Qed.

Lemma tidy_y_sub (top d : Q) (g : globals) :
  0 <= d -> tidy top g -> tidy top (y_sub d g).
Proof.
  intros D [T F]. split; simpl; [lra |].
  eapply List.Forall_impl; [| exact F].
  intros o. apply baseline_lower. lra.
Qed.

Lemma tidy_drawString (top x : Q) (text : string) (g : globals) :
  tidy top g -> tidy top (drawString x (y g) text g).
Proof.
  intros [T F]. split; [exact T |]. simpl.
  apply Forall_app. split; [exact F |].
  constructor; [| constructor]. simpl. split; [apply Qle_refl | exact T].
Qed.

Lemma tidy_fold {A : Type} (top : Q) (f : globals -> A -> globals)
    (items : list A) :
  (forall a g, tidy top g -> tidy top (f g a)) ->
  forall g, tidy top g -> tidy top (fold_left f items g).
Proof.
  intros H. induction items as [|a rest IH]; intros g T; [exact T |].
  cbn [fold_left]. apply IH, H, T.
Qed.

Lemma tidy_draw_lines (top x lh : Q) (lines : list string) (g : globals) :
  0 <= lh -> tidy top g -> tidy top (draw_lines x lh lines g).
Proof.
  intros L. unfold draw_lines. apply tidy_fold.
  intros line g0 T. now apply tidy_y_sub, tidy_drawString.
Qed.

Lemma tidy_run_call glyph (top : Q) (k : call) (g : globals) :
  heights_nonneg k -> tidy top g -> tidy top (run_call glyph g k).
Proof.
  destruct k as [text | text | text fs lh | items fs lh | items fs lh |];
    simpl; intros H T.
  - unfold draw_title.
    apply tidy_y_sub; [lra |]. now apply tidy_drawString, tidy_setFont.
  - unfold draw_heading.
    apply tidy_y_sub; [lra |]. now apply tidy_drawString, tidy_setFont.
  - unfold draw_paragraph. now apply tidy_draw_lines, tidy_setFont.
  - unfold draw_bullets. apply tidy_fold; [| now apply tidy_setFont].
    intros item g0 T0. unfold draw_bullet.
    destruct (simpleSplit glyph item "Helvetica" fs _); [exact T0 |].
    apply tidy_draw_lines; [exact H |].
    now apply tidy_y_sub, tidy_drawString.
  - unfold draw_numbered. apply tidy_fold; [| now apply tidy_setFont].
    intros [idx item] g0 T0. unfold draw_number.
    destruct (simpleSplit glyph item "Helvetica" fs _); [exact T0 |].
    apply tidy_draw_lines; [exact H |].
    now apply tidy_y_sub, tidy_drawString.
  - unfold section_gap. apply tidy_y_sub; [lra | exact T].
Qed.

Lemma tidy_run_calls glyph (top : Q) (ks : list call) (g : globals) :
  Forall heights_nonneg ks -> tidy top g -> tidy top (run_calls glyph ks g).
Proof.
  intros H. revert g. induction H as [|k ks Hk _ IH]; intros g T; [exact T |].
  unfold run_calls. cbn [fold_left]. apply IH. now apply tidy_run_call.
Qed.

(** The guard is enough. With line heights that are not negative, every
    line is drawn at or above the final cursor and at or below the top
    margin; so when the script finishes, every [DrawString] of the saved
    file has its baseline between the bottom margin and the top margin:
    checking the cursor once, after the last call, covers every line drawn
    on the way. *)
Theorem finished_run_on_page glyph (doc : list call) (w : world)
    (Hheights : Forall heights_nonneg doc) :
  let g := run_calls glyph doc start in
  let r := script_with glyph doc w in
  Forall (baseline_within (y g) (PAGE_HEIGHT - MARGIN)) (c g) /\
  (fst r = Finished ->
   files (snd r) !! OUTPUT_PATH = Some (c g) /\
   Forall (baseline_within MARGIN (PAGE_HEIGHT - MARGIN)) (c g)).
Proof.
  intros g r.
  assert (T : tidy (PAGE_HEIGHT - MARGIN) g).
  { apply tidy_run_calls; [exact Hheights |].
    split; [apply Qle_refl | constructor]. }
  destruct T as [_ F]. split; [exact F |].
  subst r. unfold script_with. fold g.
  destruct (Qlt_bool (y g) MARGIN) eqn:E; [discriminate |].
  intros _. cbn [fst snd files save print].
  split; [apply lookup_insert_eq |].
  apply Qlt_bool_false in E.
  eapply List.Forall_impl; [| exact F].
  intros o. apply baseline_lower. lra.
Qed.

Lemma finished_run_on_page_witness :
  Forall heights_nonneg document /\
  fst (script_with sample_metric document empty_world) = Finished /\
  Forall (baseline_within MARGIN (PAGE_HEIGHT - MARGIN))
         (c (run_calls sample_metric document start)).
Proof.
  split; [exact document_heights |].
  assert (F : fst (script_with sample_metric document empty_world) = Finished)
    by (vm_compute; reflexivity).
  split; [exact F |].
  exact (proj2 (proj2 (finished_run_on_page sample_metric document empty_world
                         document_heights) F)).
Defined.

(** ** The right margin *)

Lemma simpleSplit_fits glyph (text fontName : string) (fontSize maxWidth : Q) :
  (forall t, In t (Str.split text) ->
             stringWidth glyph t fontName fontSize <= maxWidth) ->
  Forall (fun line => stringWidth glyph line fontName fontSize <= maxWidth)
         (simpleSplit glyph text fontName fontSize maxWidth).
Proof.
  intros Htok. unfold simpleSplit. apply List.Forall_forall. intros line Hin.
  apply in_map_iff in Hin as (grp & <- & Hg).
  pose proof (wrap_fit glyph fontName fontSize maxWidth (Str.split text) []
                (or_introl eq_refl)) as F.
  rewrite List.Forall_forall in F. destruct (F grp Hg) as [Hfit | [t ->]].
  - now apply Qle_bool_iff.
  - change (Str.join [t]) with t. apply Htok.
    pose proof (wrap_concat glyph fontName fontSize maxWidth (Str.split text) [])
      as C.
    simpl in C. rewrite <- C.
    apply in_concat. exists [t]. split; [exact Hg | now left].
Qed.

Lemma line_ops_ends_by glyph (size edge x y0 lh : Q) (lines : list string) :
  Forall (fun line => x + stringWidth glyph line "Helvetica" size <= edge) lines ->
  Forall (ends_by glyph size edge) (line_ops x y0 lh lines).
Proof.
  intros H. revert y0. induction H as [|l rest Hl _ IH]; intros y0; simpl;
    constructor; [exact Hl | apply IH].
Qed.

(** A marker no wider than the indent kept for it, in front of lines that
    fit the width left: every line of the item ends by the right margin. *)
Lemma item_ops_ends_by glyph (size y0 lh indent : Q) (marker : string)
    (wrapped : list string) :
  stringWidth glyph marker "Helvetica" size <= indent ->
  Forall (fun line => stringWidth glyph line "Helvetica" size
                      <= CONTENT_WIDTH - indent) wrapped ->
  Forall (ends_by glyph size (PAGE_WIDTH - MARGIN))
         (item_ops (MARGIN + indent) y0 lh marker wrapped).
Proof.
  intros Hm Hw. destruct Hw as [|first rest Hf Hr]; simpl; constructor.
  - simpl. rewrite stringWidth_app. unfold CONTENT_WIDTH in Hf. lra.
  - apply line_ops_ends_by. eapply List.Forall_impl; [| exact Hr].
    intros line H. simpl in H. unfold CONTENT_WIDTH in H. lra.
Qed.

Lemma fold_ends_by {A : Type} glyph (size : Q) (f : globals -> A -> globals)
    (ops : A -> Q -> list op) (items : list A) :
  (forall a g, c (f g a) = c g ++ ops a (y g)) ->
  (forall a y0, In a items -> Forall (ends_by glyph size (PAGE_WIDTH - MARGIN)) (ops a y0)) ->
  forall g, exists ext,
    c (fold_left f items g) = c g ++ ext /\
    Forall (ends_by glyph size (PAGE_WIDTH - MARGIN)) ext.
Proof.
  intros Hc. induction items as [|a rest IH]; intros Hops g.
  - exists []. simpl. rewrite app_nil_r. split; [reflexivity | constructor].
  - cbn [fold_left].
    destruct (IH (fun b y0 Hb => Hops b y0 (or_intror Hb)) (f g a)) as (ext & E & F).
    exists (ops a (y g) ++ ext). split.
    + now rewrite E, Hc, <- app_assoc.
    + apply Forall_app. split; [apply Hops; now left | exact F].
Qed.

Lemma enumerate_in {A : Type} (items : list A) (start idx : nat) (item : A) :
  In (idx, item) (enumerate start items) ->
  exists i, idx = (start + i)%nat /\ nth_error items i = Some item.
Proof.
  revert start. induction items as [|x rest IH]; intros start H; [destruct H |].
  destruct H as [H | H].
  - injection H as <- <-. exists 0%nat. split; [lia | reflexivity].
  - destruct (IH (S start) H) as (i & -> & Hi).
    exists (S i). split; [lia | exact Hi].
Qed.

(** Numbered lists keep to the right margin. If no single token of an
    item is wider than the text width left beside the prefix of that item,
    then every line [draw_numbered] draws, measured in Helvetica at the
    font size, ends at or before the right margin: the first line with its
    prefix as well as the indented continuation lines. *)
Theorem numbered_within_right_margin glyph (items : list string)
    (font_size line_height : Q) (g : globals)
    (Htokens : forall i item t,
        nth_error items i = Some item -> In t (Str.split item) ->
        stringWidth glyph t "Helvetica" font_size <=
        CONTENT_WIDTH -
        stringWidth glyph (Str.str (S i) +:+ ". ") "Helvetica" font_size) :
  exists ext,
    c (draw_numbered glyph items font_size line_height g) = c g ++ ext /\
    Forall (ends_by glyph font_size (PAGE_WIDTH - MARGIN)) ext.
Proof.
  unfold draw_numbered.
  destruct (fold_ends_by glyph font_size
              (draw_number glyph font_size line_height)
              (fun entry y0 =>
                 item_ops (MARGIN + stringWidth glyph (prefix_of (fst entry))
                                      "Helvetica" font_size)
                          y0 line_height (prefix_of (fst entry))
                          (simpleSplit glyph (snd entry) "Helvetica" font_size
                             (number_budget glyph font_size (fst entry))))
              (enumerate 1 items)) with (g := setFont "Helvetica" font_size g)
    as (ext & E & F).
  - intros [idx item] g0. apply draw_number_c.
  - intros [idx item] y0 Hin. cbn [fst snd].
    apply item_ops_ends_by; [apply Qle_refl |].
    apply simpleSplit_fits. intros t Ht.
    destruct (enumerate_in items 1 idx item Hin) as (i & -> & Hi).
    exact (Htokens i item t Hi Ht).
  - exists (SetFont "Helvetica" font_size :: ext). split.
    + rewrite E. simpl. now rewrite <- app_assoc.
    + constructor; [exact I | exact F].
Qed.

(** Bulleted lists keep to the right margin when the marker fits its
    indent. If the marker ["- "] is no wider than the bullet indent of 12
    and no single token of an item is wider than the content width less
    that indent, then every line [draw_bullets] draws, measured in
    Helvetica at the font size, ends at or before the right margin. The
    first line of an item is wrapped without its marker but drawn with it,
    so the bound on the marker is needed. *)
Theorem bullets_within_right_margin glyph (items : list string)
    (font_size line_height : Q) (g : globals)
    (Hmarker : stringWidth glyph "- " "Helvetica" font_size <= 12)
    (Htokens : forall item t,
        In item items -> In t (Str.split item) ->
        stringWidth glyph t "Helvetica" font_size <= CONTENT_WIDTH - 12) :
  exists ext,
    c (draw_bullets glyph items font_size line_height g) = c g ++ ext /\
    Forall (ends_by glyph font_size (PAGE_WIDTH - MARGIN)) ext.
Proof.
  unfold draw_bullets.
  destruct (fold_ends_by glyph font_size
              (draw_bullet glyph font_size line_height (CONTENT_WIDTH - bullet_indent))
              (fun item y0 =>
                 item_ops (MARGIN + bullet_indent) y0 line_height "- "
                          (simpleSplit glyph item "Helvetica" font_size
                             (CONTENT_WIDTH - bullet_indent)))
              items) with (g := setFont "Helvetica" font_size g)
    as (ext & E & F).
  - intros item g0. apply draw_bullet_c.
  - intros item y0 Hin.
    apply item_ops_ends_by; [exact Hmarker |].
    apply simpleSplit_fits. intros t Ht. exact (Htokens item t Hin Ht).
  - exists (SetFont "Helvetica" font_size :: ext). split.
    + rewrite E. simpl. now rewrite <- app_assoc.
    + constructor; [exact I | exact F].
Qed.

Lemma numbered_within_right_margin_witness :
  exists ext,
    c (draw_numbered sample_metric ["Install dependencies: npm install"]
                     9.6 11.5 start) = c start ++ ext /\
    Forall (ends_by sample_metric 9.6 (PAGE_WIDTH - MARGIN)) ext.
Proof.
  apply numbered_within_right_margin.
  intros i item t Hi Ht.
  destruct i as [|i]; [| destruct i; discriminate].
  injection Hi as <-. vm_compute in Ht.
  repeat (destruct Ht as [<- | Ht]; [vm_compute; discriminate |]).
  destruct Ht.
Defined.

Lemma bullets_within_right_margin_witness :
  stringWidth sample_metric "- " "Helvetica" 9.6 <= 12 /\
  exists ext,
    c (draw_bullets sample_metric ["Uses virtual row rendering"]
                    9.6 11.5 start) = c start ++ ext /\
    Forall (ends_by sample_metric 9.6 (PAGE_WIDTH - MARGIN)) ext.
Proof.
  assert (M : stringWidth sample_metric "- " "Helvetica" 9.6 <= 12)
    by (vm_compute; discriminate).
  split; [exact M |].
  apply bullets_within_right_margin; [exact M |].
  intros item t [<- | []] Ht. vm_compute in Ht.
  repeat (destruct Ht as [<- | Ht]; [vm_compute; discriminate |]).
  destruct Ht.
Defined.

(** With glyphs 12 points wide the marker takes 24 points, twice the
    indent: an item of one 43-letter token, which just fits the width left
    for the text, is drawn with its marker from the left margin and ends 12
    points past the right margin. *)
Example wide_marker_crosses_right_margin :
  let item := "aaaaaaaaaaaaaaaaaaaaaaaaaaaaaaaaaaaaaaaaaaa" in
  stringWidth (mono 1000) item "Helvetica" 12 == CONTENT_WIDTH - 12 /\
  match List.last (c (draw_bullets (mono 1000) [item] 12 14 start))
                  (SetFont EmptyString 0) with
  | DrawString x _ text =>
      text = "- " +:+ item /\
      x + stringWidth (mono 1000) text "Helvetica" 12 == PAGE_WIDTH - MARGIN + 12
  | SetFont _ _ => False
  end.
Proof. vm_compute. repeat split. Qed.

